(** * build.py: load-address allocation and linker-script patching

    The script lists [src/bin], sorts the names, and for each of them
    rewrites [src/linker.ld] with the application's load address, runs
    cargo, prints a report line and writes the linker script back.

    The development has four layers:
    - [Py]: the Python built-ins the script calls ([str.find], slicing,
      [str.replace], [hex], the splitting of a text into lines and
      [writelines], [list.sort]);
    - [Build]: the script over the text of the linker script, as a state
      transformer over that text, the outside world and a log of the calls
      the script makes;
    - [Disk]: the script over the content of the linker script as it is
      stored, with the translation of line endings that a file opened in
      text mode performs when it is read;
    - the properties of the specification.

    Modelling envelope.  Python [str] values are [string]s (sequences of
    8-bit characters); Python [int]s are [Z].  In [Build] the linker script
    is the [str] that reading yields, with line feed as its only line
    terminator; in [Disk] it is the stored content, in which a carriage
    return, alone or before a line feed, also ends a line and is read as a
    line feed.  Writing is that of a POSIX system, where a line feed is
    stored as a line feed.  I/O failures and character encoding are outside
    the model.  [os.system] is an arbitrary function of the command line,
    the linker script on disk and the rest of the world; it may change both
    and returns an exit status. *)

From Stdlib Require Import ZArith List String Ascii Bool Lia.
From Stdlib Require Import Sorted Permutation Mergesort Orders HexString.
Import ListNotations.

#[local] Open Scope string_scope.
#[local] Open Scope Z_scope.

(* ================================================================= *)
(** ** Python built-ins *)

Module Py.

(** The line feed character, ['\n']. *)
Definition LF : ascii := "010"%char.

(** [s.find(sub)]: the lowest index at which [sub] occurs in [s], [-1] when
    it does not occur. *)
Fixpoint find_from (sub s : string) (i : Z) : Z :=
  if prefix sub s then i
  else match s with
       | EmptyString => -1
       | String _ s' => find_from sub s' (i + 1)
       end.

Definition str_find (s sub : string) : Z := find_from sub s 0.

(** [s[:i]]: a negative stop counts from the end, and the stop is clamped
    to [0 .. len(s)]. *)
Definition slice_to (s : string) (i : Z) : string :=
  let n := Z.of_nat (String.length s) in
  let stop := if i <? 0 then Z.max 0 (n + i) else Z.min i n in
  substring 0 (Z.to_nat stop) s.

(** [s.replace(old, new)]: the occurrences of [old] are found scanning from
    the left and do not overlap.  [skip] counts the characters of the
    current match that are still to be passed over. *)
Fixpoint replace_from (old new : string) (skip : nat) (s : string) : string :=
  match s with
  | EmptyString => EmptyString
  | String c s' =>
      match skip with
      | S k => replace_from old new k s'
      | O =>
          if prefix old s
          then new ++ replace_from old new (String.length old - 1) s'
          else String c (replace_from old new 0 s')
      end
  end.

(** With an empty [old], Python puts [new] before every character and at
    the end. *)
Fixpoint interleave (new s : string) : string :=
  match s with
  | EmptyString => new
  | String c s' => new ++ String c (interleave new s')
  end.

Definition str_replace (s old new : string) : string :=
  match old with
  | EmptyString => interleave new s
  | String _ _ => replace_from old new 0 s
  end.

(** [hex(n)]: lowercase digits after [0x], no padding, a leading minus sign
    for a negative number. *)
Definition hex (n : Z) : string := HexString.of_Z n.

(** The lines of a text whose only line terminator is the line feed, in
    order, each with its terminating line feed; only the last one may lack
    it.  This is what [f.readlines()] yields once the file object has
    translated the line endings of the stored content ([Disk.readlines]). *)
Fixpoint readlines (s : string) : list string :=
  match s with
  | EmptyString => []
  | String c s' =>
      if Ascii.eqb c LF then String c EmptyString :: readlines s'
      else match readlines s' with
           | [] => [String c EmptyString]
           | l :: ls => String c l :: ls
           end
  end.

(** [f.writelines(lines)]: the strings one after the other, nothing added. *)
Definition writelines (lines : list string) : string :=
  fold_right String.append EmptyString lines.

(** [list.sort()] on strings: ascending in the lexicographic order of the
    character codes, by a stable merge sort. *)
Module StrOrder <: TotalLeBool.
Definition t := string.
Definition leb : t -> t -> bool := String.leb.
Theorem leb_total : forall a1 a2, leb a1 a2 = true \/ leb a2 a1 = true.
Proof. exact String.leb_total. Qed.
End StrOrder.

Module StrSort := Sort StrOrder.

Definition list_sort (l : list string) : list string := StrSort.sort l.

End Py.

(* ================================================================= *)
(** ** The script *)

Module Build.
Import Py.

Definition base_address : Z := 0x80400000.
Definition step : Z := 0x20000.

(** [base_address+step*app_id], computed for the patch and for the report. *)
Definition address (app_id : nat) : Z := base_address + step * Z.of_nat app_id.

(** [app[:app.find('.')]] *)
Definition identity (app : string) : string := slice_to app (str_find app ".").

(** ['cargo build --bin %s --release' % app] *)
Definition cargo_command (app : string) : string :=
  "cargo build --bin " ++ app ++ " --release".

(** ['[build.py] application %s start with address %s' % (app, hex(...))] *)
Definition report_line (app : string) (addr : Z) : string :=
  "[build.py] application " ++ app ++ " start with address " ++ hex addr.

(** [line.replace(hex(base_address), hex(base_address+step*app_id))] *)
Definition patch_line (app_id : nat) (line : string) : string :=
  str_replace line (hex base_address) (hex (address app_id)).

(** What the script does to its environment, in order: [Exec] is a call of
    [os.system], with the content [src/linker.ld] had when the command was
    launched and the exit status that came back; [Print] is a line on the
    console. *)
Inductive event : Type :=
| Exec (command template : string) (status : Z)
| Print (line : string).

Section Script.

(** Everything outside the script that a build can read or change. *)
Variable World : Type.

(** [os.system command], given the linker script and the world: the
    linker script and the world afterwards, and the exit status. *)
Variable os_system : string -> string -> World -> string * World * Z.

Record state : Type := mkState {
  linker_ld : string;
  world : World;
  log : list event
}.

(** [with open(linker, 'w+') as f: f.writelines(lines)] *)
Definition write_linker (lines : list string) (st : state) : state :=
  mkState (writelines lines) (world st) (log st).

(** [os.system(command)]; the exit status goes to the log and nowhere
    else, the script does not look at it. *)
Definition system (command : string) (st : state) : state :=
  let '(ld, w, status) := os_system command (linker_ld st) (world st) in
  mkState ld w (log st ++ [Exec command (linker_ld st) status])%list.

(** [print(line)] *)
Definition print (line : string) (st : state) : state :=
  mkState (linker_ld st) (world st) (log st ++ [Print line])%list.

(** The body of [for app in apps]. *)
Definition loop_body (app : string) (app_id : nat) (st : state) : state :=
  let app := identity app in
  let lines_before := readlines (linker_ld st) in
  let lines := map (patch_line app_id) lines_before in
  let st := write_linker lines st in
  let st := system (cargo_command app) st in
  let st := print (report_line app (address app_id)) st in
  write_linker lines_before st.

(** The loop, with [app_id] counted up by one after each application. *)
Fixpoint for_apps (apps : list string) (app_id : nat) (st : state) : state :=
  match apps with
  | [] => st
  | app :: rest => for_apps rest (S app_id) (loop_body app app_id st)
  end.

(** The whole script: [listdir] is what [os.listdir('src/bin')] returned,
    [template] the content of [src/linker.ld] at the start. *)
Definition main (listdir : list string) (template : string) (w : World) : state :=
  for_apps (list_sort listdir) 0 (mkState template w []).

End Script.

Arguments linker_ld {World} _.
Arguments world {World} _.
Arguments log {World} _.
Arguments mkState {World} _ _ _.
Arguments loop_body {World} _ _ _ _.
Arguments for_apps {World} _ _ _ _.
Arguments main {World} _ _ _ _.

(** The console output and the builds of a log. *)
Fixpoint printed (l : list event) : list string :=
  match l with
  | [] => []
  | Print line :: l' => line :: printed l'
  | Exec _ _ _ :: l' => printed l'
  end.

Fixpoint builds (l : list event) : list (string * string * Z) :=
  match l with
  | [] => []
  | Exec c t s :: l' => (c, t, s) :: builds l'
  | Print _ :: l' => builds l'
  end.

(** The applications in the order the loop takes them, each with its
    [app_id]. *)
Definition enumerate (from : nat) (apps : list string) : list (nat * string) :=
  combine (seq from (List.length apps)) apps.

(** The identities the loop goes through, in order. *)
Definition identities (listdir : list string) : list string :=
  map identity (list_sort listdir).

(** A build that changes nothing and returns [status]. *)
Definition idle_build (status : Z) (command template : string) (w : unit)
  : string * unit * Z := (template, w, status).

End Build.

(* ================================================================= *)
(** ** The script over the stored content *)

Module Disk.
Import Py Build.

(** The carriage return character. *)
Definition CR : ascii := "013"%char.

(** What a file opened with [open(linker, 'r')] does to the stored content
    while it is read: a carriage return followed by a line feed, and a
    carriage return alone, are both delivered as one line feed. *)
Fixpoint universal_newlines (raw : string) : string :=
  match raw with
  | EmptyString => EmptyString
  | String c rest =>
      if Ascii.eqb c CR
      then String LF
             match rest with
             | EmptyString => EmptyString
             | String d rest' =>
                 if Ascii.eqb d LF then universal_newlines rest'
                 else universal_newlines rest
             end
      else String c (universal_newlines rest)
  end.

(** [f.readlines()] on the stored content [raw]. *)
Definition readlines (raw : string) : list string :=
  Py.readlines (universal_newlines raw).

Section Script.

Variable World : Type.
Variable os_system : string -> string -> World -> string * World * Z.

(** The body of [for app in apps], the state holding the stored content. *)
Definition loop_body (app : string) (app_id : nat) (st : state World)
  : state World :=
  let app := identity app in
  let lines_before := readlines (linker_ld st) in
  let lines := map (patch_line app_id) lines_before in
  let st := write_linker World lines st in
  let st := system World os_system (cargo_command app) st in
  let st := print World (report_line app (address app_id)) st in
  write_linker World lines_before st.

Fixpoint for_apps (apps : list string) (app_id : nat) (st : state World)
  : state World :=
  match apps with
  | [] => st
  | app :: rest => for_apps rest (S app_id) (loop_body app app_id st)
  end.

(** The whole script, [raw] the stored content of [src/linker.ld] at the
    start. *)
Definition main (listdir : list string) (raw : string) (w : World)
  : state World :=
  for_apps (list_sort listdir) 0 (mkState raw w []).

End Script.

Arguments loop_body {World} _ _ _ _.
Arguments for_apps {World} _ _ _ _.
Arguments main {World} _ _ _ _.

(** A linker script saved with carriage return and line feed. *)
Definition crlf_linker : string :=
  "BASE_ADDRESS = 0x80400000;" ++ String CR (String LF EmptyString).

End Disk.

(* ================================================================= *)
(** ** Vocabulary of the properties *)

Module Spec.
Import Py Build.

(** The character [c] is one of the characters of [s]. *)
Fixpoint has_char (c : ascii) (s : string) : bool :=
  match s with
  | EmptyString => false
  | String a s' => Ascii.eqb a c || has_char c s'
  end.

(** [s] without its last character; the empty text stays empty. *)
Fixpoint drop_last (s : string) : string :=
  match s with
  | EmptyString => EmptyString
  | String c EmptyString => EmptyString
  | String c s' => String c (drop_last s')
  end.

(** [s'] is [s] with the occurrences of [old] replaced by [new]: going
    through [s] from the left, an occurrence that starts here is replaced
    and the reading resumes after it; any other character is kept. *)
Inductive replaced (old new : string) : string -> string -> Prop :=
| replaced_end : replaced old new EmptyString EmptyString
| replaced_here (s s' : string) :
    replaced old new s s' -> replaced old new (old ++ s) (new ++ s')
| replaced_keep (c : ascii) (s s' : string) :
    prefix old (String c s) = false ->
    replaced old new s s' -> replaced old new (String c s) (String c s').

(** Every character of [s] passes the test [p]. *)
Fixpoint all_chars (p : ascii -> bool) (s : string) : bool :=
  match s with
  | EmptyString => true
  | String c s' => p c && all_chars p s'
  end.

(** Every character of [s] sorts after the dot: digits, letters and the
    underscore do, the hyphen does not. *)
Definition above_dot (s : string) : bool :=
  all_chars (fun c => (N_of_ascii "." <? N_of_ascii c)%N) s.

(** A name made of an identity above the dot, a dot, and an extension. *)
Definition well_named (name : string) : Prop :=
  exists ident ext, name = ident ++ String "." ext /\ above_dot ident = true.

(** The lexicographic order of [list.sort] on strings. *)
Definition str_le (a b : string) : Prop := String.leb a b = true.




(** The command of a build. *)
Definition command_of (b : string * string * Z) : string := fst (fst b).


(** A linker script with the canonical literal, as the script expects it. *)
Definition sample_linker : string :=
  "BASE_ADDRESS = 0x80400000;" ++ String LF ("SECTIONS" ++ String LF "").


(** [sub] occurs in [s] as a literal piece of text. *)
Definition occurs (sub s : string) : Prop :=
  exists before after, s = before ++ sub ++ after.

(** A line that ends with its line feed. *)
Definition terminated (l : string) : Prop :=
  exists body, l = body ++ String LF EmptyString.

(** The lines of a text: every line but the last is terminated. *)
Fixpoint lines_ok (ls : list string) : Prop :=
  match ls with
  | [] => True
  | l :: ls' => (ls' = [] \/ terminated l) /\ lines_ok ls'
  end.

(** The digits [0] to [9] and the lowercase letters [a] to [f]. *)
Definition lower_hex_digit (c : ascii) : bool :=
  let n := N_of_ascii c in
  ((N_of_ascii "0" <=? n) && (n <=? N_of_ascii "9")
   || (N_of_ascii "a" <=? n) && (n <=? N_of_ascii "f"))%N.

(** The text of a hexadecimal literal in the convention of the linker
    script: [0x], then lowercase digits, the first of which is not [0]
    unless it is the only one. *)
Definition canonical_hex (s : string) : bool :=
  match s with
  | String "0" (String "x" (String d ds)) =>
      all_chars lower_hex_digit (String d ds)
      && (negb (Ascii.eqb d "0") || String.eqb ds EmptyString)
  | _ => false
  end.

(** The log of the loop over [apps] starting at [app_id], when the linker
    script holds [t] and the builds return [statuses]: for each application
    its build, launched on the patched linker script, and then its report
    line. *)
Fixpoint script_log (t : string) (app_id : nat) (apps : list string)
    (statuses : list Z) : list event :=
  match apps, statuses with
  | app :: apps', status :: statuses' =>
      Exec (cargo_command (identity app))
           (str_replace t (hex base_address) (hex (address app_id))) status
      :: Print (report_line (identity app) (address app_id))
      :: script_log t (S app_id) apps' statuses'
  | _, _ => []
  end.

(** A line with its line feed at the end and nowhere else. *)
Definition full_line (l : string) : Prop :=
  exists body, l = body ++ String LF EmptyString /\ has_char LF body = false.

(** A last line that lacks its line feed: some text, no line feed in it. *)
Definition open_line (l : string) : Prop :=
  l <> EmptyString /\ has_char LF l = false.

(** The lines [readlines] can yield: full lines, the last of which may be
    an open one. *)
Fixpoint text_lines (ls : list string) : Prop :=
  match ls with
  | [] => True
  | l :: ls' =>
      match ls' with
      | [] => full_line l \/ open_line l
      | _ :: _ => full_line l /\ text_lines ls'
      end
  end.

(** A name made of a dot-free identity, a dot, and the extension [ext]. *)
Definition named_with (ext name : string) : Prop :=
  exists ident, name = ident ++ String "." ext /\ has_char "." ident = false.

(** The builds of [apps] one after the other from ordinal [app_id], each on
    the text [t] patched for its ordinal and in the world the build before
    it left: the world at the end and the exit statuses in order. *)
Fixpoint run_builds {World : Type}
    (sys : string -> string -> World -> string * World * Z)
    (t : string) (app_id : nat) (apps : list string) (w : World)
  : World * list Z :=
  match apps with
  | [] => (w, [])
  | app :: rest =>
      let '(_, w', status) :=
        sys (cargo_command (identity app))
            (str_replace t (hex base_address) (hex (address app_id))) w in
      let '(w'', statuses) := run_builds sys t (S app_id) rest w' in
      (w'', status :: statuses)
  end.

(** A build that scribbles over the linker script, leaves the world alone
    and returns [status]. *)
Definition scribbling_build (status : Z) (command template : string) (w : unit)
  : string * unit * Z := ("scribble", w, status).

End Spec.

Import Py Build Spec.

Example find_dot : str_find "alpha.x" "." = 5.
Proof. reflexivity. Qed.

Example identity_alpha : identity "alpha.x" = "alpha".
Proof. reflexivity. Qed.

Example identity_two_dots : identity "00hello.tar.gz" = "00hello".
Proof. reflexivity. Qed.

Example hex_base : hex base_address = "0x80400000".
Proof. reflexivity. Qed.

Example hex_second : hex (address 1) = "0x80420000".
Proof. reflexivity. Qed.

Example canonical_examples :
  canonical_hex "0x80400000" = true /\ canonical_hex "0x0" = true /\
  canonical_hex "0X80400000" = false /\ canonical_hex "0x080400000" = false /\
  canonical_hex "0x804ABCDE" = false /\ canonical_hex "80400000" = false.
Proof. repeat split. Qed.

Example replace_overlap : str_replace "aaa" "aa" "b" = "ba".
Proof. reflexivity. Qed.

Example replace_empty_old : str_replace "abc" "" "-" = "-a-b-c-".
Proof. reflexivity. Qed.

Example readlines_three :
  readlines ("a" ++ String LF "b" ++ String LF "") = ["a" ++ String LF ""; "b" ++ String LF ""].
Proof. reflexivity. Qed.

Example sort_two : list_sort ["bravo.x"; "alpha.x"] = ["alpha.x"; "bravo.x"].
Proof. reflexivity. Qed.

Example run_none :
  main (idle_build 0) [] sample_linker tt = mkState sample_linker tt [].
Proof. reflexivity. Qed.

Example run_one :
  main (idle_build 0) ["alpha.x"] sample_linker tt
  = mkState sample_linker tt
      [Exec "cargo build --bin alpha --release" sample_linker 0;
       Print "[build.py] application alpha start with address 0x80400000"].
Proof. reflexivity. Qed.

Example run_two :
  printed (log (main (idle_build 0) ["bravo.x"; "alpha.x"] "" tt))
  = ["[build.py] application alpha start with address 0x80400000";
     "[build.py] application bravo start with address 0x80420000"].
Proof. reflexivity. Qed.

(* ================================================================= *)
(** ** Strings *)

Lemma append_nil_r (s : string) : s ++ "" = s.
Proof. induction s as [|c s IH]; simpl; [reflexivity | now rewrite IH]. Qed.

Lemma append_assoc (a b c : string) : (a ++ b) ++ c = a ++ b ++ c.
Proof. induction a as [|x a IH]; simpl; [reflexivity | now rewrite IH]. Qed.

Lemma length_append (a b : string) :
  String.length (a ++ b) = (String.length a + String.length b)%nat.
Proof. induction a as [|x a IH]; simpl; [reflexivity | now rewrite IH]. Qed.

Lemma prefix_length (a b : string) :
  prefix a b = true -> (String.length a <= String.length b)%nat.
Proof.
  revert b; induction a as [|x a IH]; intros [|y b]; simpl; try lia; try discriminate.
  destruct (ascii_dec x y); [intros H; apply IH in H; lia | discriminate].
Qed.

Lemma prefix_append (a s : string) : prefix a (a ++ s) = true.
Proof.
  induction a as [|x a IH]; simpl; [now destruct s |].
  destruct (ascii_dec x x); [assumption | congruence].
Qed.

Lemma prefix_split (a s : string) :
  prefix a s = true -> exists r, s = a ++ r.
Proof.
  revert s; induction a as [|x a IH]; intros s H.
  - now exists s.
  - destruct s as [|y s]; simpl in H; [discriminate |].
    destruct (ascii_dec x y) as [->|]; [| discriminate].
    destruct (IH _ H) as [r ->]. now exists r.
Qed.

(** A text without the character [c] cannot reach across a [c]. *)
Lemma prefix_stops_at (c : ascii) (old a b : string) :
  has_char c old = false ->
  prefix old (a ++ String c b) = prefix old a.
Proof.
  revert a; induction old as [|o old IH]; intros a Hc.
  - now destruct a.
  - simpl in Hc. apply orb_false_elim in Hc as [Ho Hold].
    apply Ascii.eqb_neq in Ho.
    destruct a as [|x a]; simpl.
    + destruct (ascii_dec o c); [tauto | reflexivity].
    + destruct (ascii_dec o x); [now apply IH | reflexivity].
Qed.

Lemma prefix_of_empty (old : string) : old <> "" -> prefix old "" = false.
Proof. destruct old; [congruence | reflexivity]. Qed.

Lemma str_replace_not_empty (s old new : string) :
  old <> "" -> str_replace s old new = replace_from old new 0 s.
Proof. destruct old; [congruence | reflexivity]. Qed.

(* ================================================================= *)
(** ** Text files: lines in, lines out *)

Lemma writelines_readlines (s : string) : writelines (readlines s) = s.
Proof.
  induction s as [|c s IH]; simpl; [reflexivity |].
  destruct (Ascii.eqb c LF).
  - simpl. fold (writelines (readlines s)). now rewrite IH.
  - destruct (readlines s) as [|l ls]; simpl in *.
    + now rewrite <- IH.
    + now rewrite <- IH.
Qed.

Lemma readlines_lines_ok (s : string) : lines_ok (readlines s).
Proof.
  induction s as [|c s IH]; simpl; [exact I |].
  destruct (Ascii.eqb c LF) eqn:E.
  - apply Ascii.eqb_eq in E; subst c. simpl. split; [| exact IH].
    right. now exists "".
  - destruct (readlines s) as [|l ls]; simpl in *.
    + split; [now left | exact I].
    + destruct IH as [[-> | [body ->]] Hls].
      * split; [now left | exact I].
      * split; [| exact Hls]. right. now exists (String c body).
Qed.

(* ================================================================= *)
(** ** Replacement, line by line and on the whole text *)

Section Replace.

Variables old new : string.
Hypothesis old_not_empty : old <> "".
Hypothesis old_one_line : has_char LF old = false.

Lemma replace_from_line (r b : string) (skip : nat) :
  (skip <= String.length b)%nat ->
  replace_from old new skip (b ++ String LF r)
  = replace_from old new skip b ++ String LF (replace_from old new 0 r).
Proof.
  revert skip; induction b as [|x b IH]; intros skip Hs.
  - assert (skip = 0%nat) as -> by (simpl in Hs; lia).
    cbn [append replace_from].
    change (String LF r) with ("" ++ String LF r) at 1.
    rewrite prefix_stops_at by assumption.
    now rewrite prefix_of_empty.
  - destruct skip as [|k].
    + cbn [append replace_from].
      change (String x (b ++ String LF r)) with (String x b ++ String LF r).
      rewrite prefix_stops_at by assumption.
      destruct (prefix old (String x b)) eqn:E.
      * apply prefix_length in E. simpl in E.
        rewrite IH by lia. now rewrite append_assoc.
      * rewrite IH by lia. reflexivity.
    + cbn [append replace_from]. apply IH. simpl in Hs. lia.
Qed.

Lemma str_replace_line (b r : string) :
  str_replace (b ++ String LF r) old new
  = str_replace b old new ++ String LF (str_replace r old new).
Proof.
  rewrite !str_replace_not_empty by assumption.
  apply replace_from_line. lia.
Qed.

Lemma str_replace_empty : str_replace "" old new = "".
Proof. now rewrite str_replace_not_empty. Qed.

Lemma str_replace_writelines (ls : list string) :
  lines_ok ls ->
  writelines (map (fun l => str_replace l old new) ls)
  = str_replace (writelines ls) old new.
Proof.
  induction ls as [|l ls IH]; intros Hok.
  - simpl. now rewrite str_replace_empty.
  - destruct Hok as [Hl Hls]. specialize (IH Hls).
    cbn [map writelines fold_right] in *.
    fold (writelines ls). fold (writelines (map (fun l => str_replace l old new) ls)).
    destruct Hl as [-> | [body ->]].
    + cbn [map writelines fold_right]. now rewrite !append_nil_r.
    + rewrite IH, append_assoc. cbn [append].
      rewrite !str_replace_line, str_replace_empty, append_assoc.
      reflexivity.
Qed.

(** Patching every line that [readlines] yields is patching the text. *)
Lemma str_replace_readlines (s : string) :
  writelines (map (fun l => str_replace l old new) (readlines s))
  = str_replace s old new.
Proof.
  rewrite str_replace_writelines by apply readlines_lines_ok.
  now rewrite writelines_readlines.
Qed.

End Replace.

(* ================================================================= *)
(** ** One application, then all of them *)

Lemma hex_base_not_empty : hex base_address <> "".
Proof. discriminate. Qed.

Lemma hex_base_one_line : has_char LF (hex base_address) = false.
Proof. reflexivity. Qed.

(** What [apply] writes: the text with the literal replaced throughout. *)
Lemma patched_text (app_id : nat) (t : string) :
  writelines (map (patch_line app_id) (readlines t))
  = str_replace t (hex base_address) (hex (address app_id)).
Proof.
  unfold patch_line.
  apply str_replace_readlines; [exact hex_base_not_empty | exact hex_base_one_line].
Qed.

Lemma list_sort_length (l : list string) :
  List.length (list_sort l) = List.length l.
Proof. symmetry. apply Permutation_length, StrSort.Permuted_sort. Qed.

Section Run.

Variable World : Type.
Variable os_system : string -> string -> World -> string * World * Z.

Lemma loop_body_linker (app : string) (app_id : nat) (st : state World) :
  linker_ld (loop_body os_system app app_id st) = linker_ld st.
Proof.
  unfold loop_body, print, system, write_linker. simpl.
  apply writelines_readlines.
Qed.

Lemma loop_body_log (app : string) (app_id : nat) (st : state World) :
  exists status,
    log (loop_body os_system app app_id st)
    = (log st ++ script_log (linker_ld st) app_id [app] [status])%list.
Proof.
  unfold loop_body, print, system, write_linker. simpl.
  rewrite patched_text.
  destruct (os_system _ _ _) as [[ld w] status]. simpl.
  exists status. now rewrite <- app_assoc.
Qed.

Lemma for_apps_linker (apps : list string) (app_id : nat) (st : state World) :
  linker_ld (for_apps os_system apps app_id st) = linker_ld st.
Proof.
  revert app_id st; induction apps as [|app apps IH]; intros app_id st; simpl.
  - reflexivity.
  - now rewrite IH, loop_body_linker.
Qed.

Lemma for_apps_log (apps : list string) (app_id : nat) (st : state World) :
  exists statuses,
    List.length statuses = List.length apps /\
    log (for_apps os_system apps app_id st)
    = (log st ++ script_log (linker_ld st) app_id apps statuses)%list.
Proof.
  revert app_id st; induction apps as [|app apps IH]; intros app_id st; simpl.
  - exists []. split; [reflexivity | now rewrite app_nil_r].
  - destruct (IH (S app_id) (loop_body os_system app app_id st)) as (ss & Hlen & Hlog).
    destruct (loop_body_log app app_id st) as (s & Hs).
    exists (s :: ss). split; [simpl; now rewrite Hlen |].
    rewrite Hlog, Hs, loop_body_linker, <- app_assoc. reflexivity.
Qed.

Lemma main_log (listdir : list string) (t : string) (w : World) :
  exists statuses,
    List.length statuses = List.length (list_sort listdir) /\
    log (main os_system listdir t w)
    = script_log t 0 (list_sort listdir) statuses.
Proof.
  unfold main.
  destruct (for_apps_log (list_sort listdir) 0 (mkState t w [])) as (ss & Hlen & Hlog).
  now exists ss.
Qed.

End Run.

Lemma printed_script_log (t : string) (apps : list string) :
  forall (app_id : nat) (statuses : list Z),
    List.length statuses = List.length apps ->
    printed (script_log t app_id apps statuses)
    = map (fun '(i, app) => report_line (identity app) (address i))
          (enumerate app_id apps).
Proof.
  induction apps as [|app apps IH]; intros app_id [|s ss] Hlen; simpl in *;
    try discriminate; try reflexivity.
  unfold enumerate in *. simpl. f_equal. apply IH. lia.
Qed.

Lemma builds_script_log (t : string) (apps : list string) :
  forall (app_id : nat) (statuses : list Z) (i : nat) (app : string),
    List.length statuses = List.length apps ->
    nth_error apps i = Some app ->
    exists status,
      nth_error statuses i = Some status /\
      nth_error (builds (script_log t app_id apps statuses)) i
      = Some (cargo_command (identity app),
              str_replace t (hex base_address) (hex (address (app_id + i))),
              status).
Proof.
  induction apps as [|a apps IH]; intros app_id [|s ss] i app Hlen Hi;
    simpl in *; try discriminate; try (destruct i; discriminate).
  destruct i as [|i]; simpl in *.
  - injection Hi as ->. exists s. now rewrite Nat.add_0_r.
  - destruct (IH (S app_id) ss i app) as (status & H1 & H2); [lia | assumption |].
    exists status. split; [assumption |].
    now replace (app_id + S i)%nat with (S app_id + i)%nat by lia.
Qed.


(* ================================================================= *)
(** ** [str.replace], characterised *)

Lemma replace_from_skip (old new a s : string) :
  replace_from old new (String.length a) (a ++ s) = replace_from old new 0 s.
Proof.
  induction a as [|x a IH]; simpl.
  - now destruct s.
  - exact IH.
Qed.

Lemma str_replace_here (old new s : string) :
  old <> "" -> str_replace (old ++ s) old new = new ++ str_replace s old new.
Proof.
  intros Hne. rewrite !str_replace_not_empty by assumption.
  destruct old as [|o old]; [congruence |].
  cbn [append replace_from].
  change (String o (old ++ s)) with (String o old ++ s).
  rewrite prefix_append.
  cbn [String.length]. rewrite Nat.sub_succ, Nat.sub_0_r.
  now rewrite replace_from_skip.
Qed.

Lemma str_replace_keep (old new : string) (c : ascii) (s : string) :
  old <> "" -> prefix old (String c s) = false ->
  str_replace (String c s) old new = String c (str_replace s old new).
Proof.
  intros Hne Hp. rewrite !str_replace_not_empty by assumption.
  cbn [replace_from]. now rewrite Hp.
Qed.


Lemma append_cancel_l (a u s : string) : a ++ u = a ++ s -> u = s.
Proof.
  induction a as [|x a IH]; simpl; intros H; [assumption |].
  injection H as H. now apply IH.
Qed.

Lemma append_empty (a b : string) : a ++ b = "" -> a = "".
Proof. destruct a; [reflexivity | discriminate]. Qed.

#[local] Ltac no_empty_occurrence :=
  match goal with
  | H : EmptyString = _ ++ _ |- _ =>
      symmetry in H; apply append_empty in H; contradiction
  | H : _ ++ _ = EmptyString |- _ => apply append_empty in H; contradiction
  end.

#[local] Ltac starts_with_old :=
  match goal with
  | Hp : prefix ?old (?old ++ _) = false |- _ =>
      rewrite prefix_append in Hp; discriminate
  | Hp : prefix ?old (String _ _) = false, Heq : ?old ++ _ = String _ _ |- _ =>
      rewrite <- Heq, prefix_append in Hp; discriminate
  | Hp : prefix ?old (String _ _) = false, Heq : String _ _ = ?old ++ _ |- _ =>
      rewrite Heq, prefix_append in Hp; discriminate
  end.

(** The result of the replacement is determined by the text. *)
Lemma replaced_unique (old new s r1 r2 : string) :
  old <> "" -> replaced old new s r1 -> replaced old new s r2 -> r1 = r2.
Proof.
  intros Hne H1; revert r2.
  induction H1 as [| s s' H1 IH | c s s' Hp H1 IH]; intros r2 H2.
  - inversion H2; subst; [reflexivity | no_empty_occurrence].
  - remember (old ++ s) as t eqn:Ht.
    destruct H2 as [| u u' Hu | c u u' Hpu Hu].
    + no_empty_occurrence.
    + apply append_cancel_l in Ht. subst u. f_equal. now apply IH.
    + starts_with_old.
  - remember (String c s) as t eqn:Ht.
    destruct H2 as [| u u' Hu | c' u u' Hpu Hu].
    + discriminate.
    + starts_with_old.
    + injection Ht as -> ->. f_equal. now apply IH.
Qed.

(* ================================================================= *)
(** ** [str.find], characterised *)

Lemma find_from_range (sub s : string) (i : Z) :
  0 <= i -> find_from sub s i = -1 \/ i <= find_from sub s i.
Proof.
  revert i; induction s as [|c s IH]; intros i Hi; cbn [find_from].
  - destruct (prefix sub ""); [right; lia | now left].
  - destruct (prefix sub (String c s)); [right; lia |].
    destruct (IH (i + 1)) as [H | H]; [lia | now left | right; lia].
Qed.

Lemma find_from_absent (sub s : string) (i : Z) :
  0 <= i ->
  find_from sub s i = -1 <-> forall a b, s <> a ++ sub ++ b.
Proof.
  revert i; induction s as [|c s IH]; intros i Hi; cbn [find_from].
  - destruct (prefix sub "") eqn:E.
    + split; [lia |]. intros H. exfalso.
      destruct (prefix_split _ _ E) as [r Hr]. apply (H "" r). exact Hr.
    + split; [| reflexivity]. intros _ a b Hab.
      destruct a; simpl in Hab; [| discriminate].
      rewrite Hab, prefix_append in E. discriminate.
  - destruct (prefix sub (String c s)) eqn:E.
    + split; [lia |]. intros H. exfalso.
      destruct (prefix_split _ _ E) as [r Hr]. apply (H "" r). exact Hr.
    + rewrite IH by lia. split; intros H a b Hab.
      * destruct a as [|x a]; simpl in Hab.
        -- rewrite Hab, prefix_append in E. discriminate.
        -- injection Hab as -> Hab. now apply (H a b).
      * apply (H (String c a) b). simpl. now rewrite Hab.
Qed.

(** [s.find(sub) == -1] exactly when [sub] does not occur in [s]. *)
Lemma str_find_absent (s sub : string) :
  str_find s sub = -1 <-> ~ occurs sub s.
Proof.
  unfold str_find, occurs. rewrite find_from_absent by lia.
  split.
  - intros H (a & b & Hab). now apply (H a b).
  - intros H a b Hab. apply H. now exists a, b.
Qed.



(* ================================================================= *)
(** ** The identity of an application *)

Lemma find_dot_absent (s : string) (i : Z) :
  has_char "." s = false -> find_from "." s i = -1.
Proof.
  revert i; induction s as [|c s IH]; intros i H; [reflexivity |].
  simpl in H. apply orb_false_elim in H as [Hc Hs].
  apply Ascii.eqb_neq in Hc.
  cbn [find_from prefix].
  destruct (ascii_dec "." c) as [E | _]; [congruence |].
  now apply IH.
Qed.

Lemma find_dot_first (a b : string) (i : Z) :
  has_char "." a = false ->
  find_from "." (a ++ String "." b) i = i + Z.of_nat (String.length a).
Proof.
  revert i; induction a as [|c a IH]; intros i H.
  - cbn [append find_from prefix String.length].
    destruct (ascii_dec "." ".") as [_ | N]; [| congruence].
    destruct b; cbn [prefix]; lia.
  - simpl in H. apply orb_false_elim in H as [Hc Ha].
    apply Ascii.eqb_neq in Hc.
    cbn [append find_from prefix].
    destruct (ascii_dec "." c) as [E | _]; [congruence |].
    rewrite IH by assumption. cbn [String.length]. lia.
Qed.

Lemma substring_prefix (a r : string) :
  substring 0 (String.length a) (a ++ r) = a.
Proof.
  induction a as [|c a IH]; simpl.
  - now destruct r.
  - now rewrite IH.
Qed.

Lemma substring_drop_last (s : string) :
  substring 0 (String.length s - 1) s = drop_last s.
Proof.
  induction s as [|c s IH]; [reflexivity |].
  destruct s as [|d s]; [reflexivity |].
  cbn [String.length] in *. rewrite Nat.sub_succ, Nat.sub_0_r in *.
  cbn [substring drop_last]. f_equal. exact IH.
Qed.

Lemma drop_last_length (s : string) :
  String.length (drop_last s) = (String.length s - 1)%nat.
Proof.
  induction s as [|c s IH]; [reflexivity |].
  destruct s as [|d s]; [reflexivity |].
  cbn [drop_last String.length] in *. rewrite IH. lia.
Qed.

(** A name with a dot: the identity is what stands before the first dot. *)
Lemma identity_before_first_dot (a b : string) :
  has_char "." a = false -> identity (a ++ String "." b) = a.
Proof.
  intros H. unfold identity, str_find, slice_to.
  rewrite find_dot_first by assumption.
  rewrite length_append. cbn [String.length].
  replace (0 + Z.of_nat (String.length a) <? 0) with false
    by (symmetry; apply Z.ltb_ge; lia).
  rewrite Z.min_l by lia.
  replace (Z.to_nat (0 + Z.of_nat (String.length a))) with (String.length a) by lia.
  apply substring_prefix.
Qed.

(** A name without a dot: [find] answers [-1] and the slice stops one
    character before the end. *)
Lemma identity_without_dot (name : string) :
  has_char "." name = false -> identity name = drop_last name.
Proof.
  intros H. unfold identity, str_find, slice_to.
  rewrite find_dot_absent by assumption.
  change (-1 <? 0) with true. cbv iota.
  rewrite <- substring_drop_last. f_equal. lia.
Qed.

(* ================================================================= *)
(** ** [list.sort] *)

Lemma str_le_trans (a b c : string) : str_le a b -> str_le b c -> str_le a c.
Proof.
  unfold str_le, String.leb.
  revert b c; induction a as [|x a IH]; intros [|y b] [|z c]; simpl;
    try discriminate; try reflexivity.
  unfold Ascii.compare.
  destruct (N.compare_spec (N_of_ascii x) (N_of_ascii y)) as [Exy | Lxy | Gxy];
    destruct (N.compare_spec (N_of_ascii y) (N_of_ascii z)) as [Eyz | Lyz | Gyz];
    try discriminate; intros H1 H2.
  - rewrite Exy, Eyz, N.compare_refl. now apply (IH b c).
  - rewrite Exy. now apply N.compare_lt_iff in Lyz as ->.
  - rewrite <- Eyz. now apply N.compare_lt_iff in Lxy as ->.
  - assert (N_of_ascii x < N_of_ascii z)%N as L by lia.
    now apply N.compare_lt_iff in L as ->.
Qed.

Lemma str_le_antisym (a b : string) : str_le a b -> str_le b a -> a = b.
Proof. apply String.leb_antisym. Qed.

Lemma list_sort_permutation (l : list string) : Permutation l (list_sort l).
Proof. apply StrSort.Permuted_sort. Qed.

Lemma list_sort_sorted (l : list string) : StronglySorted str_le (list_sort l).
Proof.
  apply Sorted_StronglySorted.
  - intros a b c. apply str_le_trans.
  - apply Sorted_LocallySorted_iff. apply StrSort.LocallySorted_sort.
Qed.

(** There is one sorted arrangement of a given collection of names. *)
Lemma sorted_unique (l1 l2 : list string) :
  StronglySorted str_le l1 -> StronglySorted str_le l2 ->
  Permutation l1 l2 -> l1 = l2.
Proof.
  revert l2; induction l1 as [|a l1 IH]; intros l2 S1 S2 P.
  - now apply Permutation_nil in P.
  - destruct l2 as [|b l2].
    + apply Permutation_sym, Permutation_nil in P. discriminate.
    + apply StronglySorted_inv in S1 as [S1 F1].
      apply StronglySorted_inv in S2 as [S2 F2].
      assert (a = b) as <-.
      { assert (In a (b :: l2)) as [-> | Ia]
            by (eapply Permutation_in; [exact P | now left]); [reflexivity |].
        assert (In b (a :: l1)) as [-> | Ib]
            by (eapply Permutation_in;
                [apply Permutation_sym; exact P | now left]); [reflexivity |].
        rewrite Forall_forall in F1, F2.
        apply str_le_antisym; [now apply F1 | now apply F2]. }
      f_equal. apply IH; try assumption.
      now apply Permutation_cons_inv in P.
Qed.

Lemma list_sort_order_independent (l1 l2 : list string) :
  Permutation l1 l2 -> list_sort l1 = list_sort l2.
Proof.
  intros P. apply sorted_unique; try apply list_sort_sorted.
  eapply Permutation_trans; [apply Permutation_sym, list_sort_permutation |].
  eapply Permutation_trans; [exact P | apply list_sort_permutation].
Qed.

(* ================================================================= *)
(** ** [hex] *)

Lemma raw_of_pos_digits :
  forall (p : positive) (rest : string),
    all_chars lower_hex_digit rest = true ->
    exists d ds,
      HexString.Raw.of_pos p rest = String d ds /\
      Ascii.eqb d "0" = false /\
      all_chars lower_hex_digit (String d ds) = true.
Proof.
  fix IH 1. intros p rest H.
  do 4 try destruct p as [p | p |]; cbn [HexString.Raw.of_pos];
    first [ apply IH; cbn [all_chars]; rewrite H; reflexivity
          | eexists _, _; split; [reflexivity |];
            split; [reflexivity | cbn [all_chars]; rewrite H; reflexivity] ].
Qed.


Lemma hex_value (n : Z) : HexString.to_Z (hex n) = n.
Proof. apply HexString.to_Z_of_Z. Qed.

Lemma address_positive (app_id : nat) : 0 < address app_id.
Proof. unfold address, base_address, step. lia. Qed.

(* ================================================================= *)
(** ** More about the log *)

Lemma printed_nth_script_log (t : string) (apps : list string) :
  forall (app_id : nat) (statuses : list Z) (i : nat) (app : string),
    List.length statuses = List.length apps ->
    nth_error apps i = Some app ->
    nth_error (printed (script_log t app_id apps statuses)) i
    = Some (report_line (identity app) (address (app_id + i))).
Proof.
  induction apps as [|a apps IH]; intros app_id [|s ss] i app Hlen Hi;
    simpl in *; try discriminate; try (destruct i; discriminate).
  destruct i as [|i]; simpl in *.
  - injection Hi as ->. now rewrite Nat.add_0_r.
  - replace (app_id + S i)%nat with (S app_id + i)%nat by lia.
    apply IH; [lia | assumption].
Qed.

Lemma commands_script_log (t : string) (apps : list string) :
  forall (app_id : nat) (statuses : list Z),
    List.length statuses = List.length apps ->
    map command_of (builds (script_log t app_id apps statuses))
    = map cargo_command (map identity apps).
Proof.
  induction apps as [|a apps IH]; intros app_id [|s ss] Hlen; simpl in *;
    try discriminate; try reflexivity.
  f_equal. apply IH. lia.
Qed.


Section Lenient.

Variable World : Type.
Variable os_system : string -> string -> World -> string * World * Z.




End Lenient.

Lemma enumerate_map (g : string -> string) (l : list string) (from : nat) :
  enumerate from (map g l) = map (fun '(i, a) => (i, g a)) (enumerate from l).
Proof.
  unfold enumerate. rewrite length_map.
  revert from; induction l as [|a l IH]; intros from; simpl; [reflexivity |].
  f_equal. apply IH.
Qed.

Lemma address_injective (i j : nat) : address i = address j -> i = j.
Proof. unfold address, step. lia. Qed.

Lemma addresses_distinct (n : nat) : NoDup (map address (seq 0 n)).
Proof.
  apply Finite.Injective_map_NoDup.
  - intros i j. apply address_injective.
  - apply seq_NoDup.
Qed.

(* ================================================================= *)
(** ** When the identities do come out sorted *)

(** Between two names whose identities sort above the dot, the order of the
    names is the order of the identities. *)
Lemma identity_monotone (a b ext1 ext2 : string) :
  above_dot a = true -> above_dot b = true ->
  str_le (a ++ String "." ext1) (b ++ String "." ext2) -> str_le a b.
Proof.
  unfold str_le, String.leb, above_dot.
  revert b; induction a as [|x a IH]; intros [|y b] Ha Hb; simpl in *;
    try reflexivity.
  - apply andb_prop in Ha as [Hx _]. apply N.ltb_lt in Hx.
    unfold Ascii.compare.
    destruct (N.compare_spec (N_of_ascii x) (N_of_ascii ".")) as [E | L | G];
      [cbn in E; lia | cbn in L; lia | intros H; exact H].
  - apply andb_prop in Ha as [_ Ha]. apply andb_prop in Hb as [_ Hb].
    destruct (Ascii.compare x y); [now apply IH | reflexivity | intros H; exact H].
Qed.

Lemma identities_sorted_map (l : list string) :
  Forall well_named l -> StronglySorted str_le l ->
  StronglySorted str_le (map identity l).
Proof.
  intros Hwn Hs; induction Hs as [| a l Hs IH Hle]; simpl; [constructor |].
  apply Forall_cons_iff in Hwn as [Ha Hl].
  constructor; [now apply IH |].
  apply Forall_map. rewrite Forall_forall in *.
  intros b Hb. specialize (Hle b Hb).
  destruct Ha as (ia & ea & -> & Hia).
  destruct (Hl b Hb) as (ib & eb & -> & Hib).
  assert (forall s, above_dot s = true -> has_char "." s = false) as Hnodot.
  { clear. unfold above_dot. induction s as [|c s IHs]; simpl; [reflexivity |].
    intros H. apply andb_prop in H as [Hc Hs]. rewrite (IHs Hs), orb_false_r.
    apply Ascii.eqb_neq. intros ->. cbn in Hc. discriminate. }
  rewrite !identity_before_first_dot by now apply Hnodot.
  now apply (identity_monotone ia ib ea eb).
Qed.

(** For names of that shape, sorting by name sorts by identity. *)
Lemma identities_sorted_above_dot (listdir : list string) :
  Forall well_named listdir -> StronglySorted str_le (identities listdir).
Proof.
  intros H. unfold identities. apply identities_sorted_map.
  - eapply Permutation_Forall; [apply list_sort_permutation | exact H].
  - apply list_sort_sorted.
Qed.

(* ================================================================= *)
(** ** The properties of the specification *)

(** On the text of the linker script: whatever the applications are and
    whatever the builds do and return, the text after the run is the text
    before the run, and every pass of the loop, and so every stretch of the
    loop, leaves the text as it found it. *)
Theorem template_text_restored :
  forall (World : Type)
         (os_system : string -> string -> World -> string * World * Z),
    (forall (listdir : list string) (t : string) (w : World),
        linker_ld (main os_system listdir t w) = t) /\
    (forall (app : string) (app_id : nat) (st : state World),
        linker_ld (loop_body os_system app app_id st) = linker_ld st) /\
    (forall (apps : list string) (app_id : nat) (st : state World),
        linker_ld (for_apps os_system apps app_id st) = linker_ld st).
Proof.
  intros World os_system. repeat split.
  - intros listdir t w. unfold main. now rewrite for_apps_linker.
  - apply loop_body_linker.
  - apply for_apps_linker.
Qed.

(** C2.  With [base_address = 0x80400000] and [step = 0x20000], the address
    of the application with ordinal [k] is [base_address + step * k]; for
    [i < j] below the number of applications the addresses are [step * (j - i)]
    apart, which is positive, and the addresses of all the applications are
    pairwise distinct. *)
Theorem C2_addresses_spaced :
  forall (World : Type)
         (os_system : string -> string -> World -> string * World * Z)
         (listdir : list string) (t : string) (w : World) (i j : nat),
    (i < j < List.length listdir)%nat ->
    base_address = 0x80400000 /\ step = 0x20000 /\
    (forall (k : nat) (app : string),
        nth_error (list_sort listdir) k = Some app ->
        address k = base_address + step * Z.of_nat k /\
        nth_error (printed (log (main os_system listdir t w))) k
        = Some (report_line (identity app) (address k))) /\
    address j - address i = step * (Z.of_nat j - Z.of_nat i) /\
    step * (Z.of_nat j - Z.of_nat i) > 0 /\
    NoDup (map address (seq 0 (List.length listdir))).
Proof.
  intros World os_system listdir t w i j Hij.
  split; [reflexivity |]. split; [reflexivity |].
  split; [| split; [| split]].
  - intros k app Hk. split; [reflexivity |].
    destruct (main_log World os_system listdir t w) as (ss & Hlen & ->).
    now apply (printed_nth_script_log t _ 0 ss k app).
  - unfold address. lia.
  - unfold step. lia.
  - apply addresses_distinct.
Qed.

Lemma C2_addresses_spaced_witness :
  (0 < 1 < List.length ["bravo.x"; "alpha.x"])%nat /\
  address 1 - address 0 = step * (Z.of_nat 1 - Z.of_nat 0) /\
  step * (Z.of_nat 1 - Z.of_nat 0) > 0.
Proof.
  assert (0 < 1 < List.length ["bravo.x"; "alpha.x"])%nat as H by (simpl; lia).
  split; [exact H |].
  destruct (C2_addresses_spaced unit (idle_build 0) ["bravo.x"; "alpha.x"]
                                sample_linker tt 0 1 H)
    as (_ & _ & _ & Hdiff & Hpos & _).
  split; [exact Hdiff | exact Hpos].
Defined.



Example patched_sample :
  str_replace sample_linker "0x80400000" (hex (address 1))
  = "BASE_ADDRESS = 0x80420000;" ++ String LF ("SECTIONS" ++ String LF "").
Proof. reflexivity. Qed.

(** C4, as the script has it.  The loop goes through the discovered names
    sorted by the whole name: a sorted rearrangement of the listing, with
    nothing removed.  Each name is cut down to its identity when its turn
    comes, and its ordinal is its position in the sorted list of names:
    the builds are those of the identities in that order, and the report
    of the application at position [i] carries [address i]. *)
Theorem C4_sorted_by_name :
  forall (World : Type)
         (os_system : string -> string -> World -> string * World * Z)
         (listdir : list string) (t : string) (w : World),
    Permutation listdir (list_sort listdir) /\
    StronglySorted str_le (list_sort listdir) /\
    map command_of (builds (log (main os_system listdir t w)))
    = map cargo_command (identities listdir) /\
    printed (log (main os_system listdir t w))
    = map (fun '(i, ident) => report_line ident (address i))
          (enumerate 0 (identities listdir)).
Proof.
  intros World os_system listdir t w.
  destruct (main_log World os_system listdir t w) as (ss & Hlen' & ->).
  repeat split.
  - apply list_sort_permutation.
  - apply list_sort_sorted.
  - now apply commands_script_log.
  - rewrite printed_script_log by assumption.
    unfold identities. rewrite enumerate_map, map_map.
    apply map_ext. now intros [i app].
Qed.

(** C4, as stated, fails.  Three names in one directory: sorted by name
    they come as [a-b.rs], [a.c], [a.rs], because [-] sorts before [.];
    the identities the loop goes through are then [a-b], [a], [a], which
    are neither sorted nor free of duplicates. *)
Lemma C4_identities_counterexample :
  identities ["a.rs"; "a.c"; "a-b.rs"] = ["a-b"; "a"; "a"] /\
  map command_of
      (builds (log (main (idle_build 0) ["a.rs"; "a.c"; "a-b.rs"] "" tt)))
  = ["cargo build --bin a-b --release"; "cargo build --bin a --release";
     "cargo build --bin a --release"] /\
  ~ NoDup (identities ["a.rs"; "a.c"; "a-b.rs"]) /\
  ~ Sorted str_le (identities ["a.rs"; "a.c"; "a-b.rs"]).
Proof.
  split; [reflexivity |]. split; [reflexivity |].
  change (identities ["a.rs"; "a.c"; "a-b.rs"]) with ["a-b"; "a"; "a"].
  split.
  - intros H. inversion H as [| x l Hin Hnd]; subst.
    inversion Hnd as [| y l' Hin' Hnd']; subst.
    apply Hin'. now left.
  - intros H. inversion H as [| x l Hs Hhd]; subst.
    inversion Hhd as [| y l' Hle]; subst.
    unfold str_le in Hle. discriminate.
Qed.



(** C6, at a name without a dot.  [find] answers [-1] and the slice cuts
    the last character off: the identity of [hello] is [hell], not
    [hello]. *)
Theorem C6_identity_of_dotless_name :
  identity "hello" = "hell" /\ identity "hello" <> "hello".
Proof. split; [reflexivity | discriminate]. Qed.

(** C7.  The run does not depend on the order in which the directory
    listing presents the names: two listings of the same names give the
    same run, with the same ordinals and addresses. *)
Theorem C7_order_independent :
  forall (World : Type)
         (os_system : string -> string -> World -> string * World * Z)
         (listdir1 listdir2 : list string) (t : string) (w : World),
    Permutation listdir1 listdir2 ->
    enumerate 0 (list_sort listdir1) = enumerate 0 (list_sort listdir2) /\
    enumerate 0 (identities listdir1) = enumerate 0 (identities listdir2) /\
    main os_system listdir1 t w = main os_system listdir2 t w.
Proof.
  intros World os_system listdir1 listdir2 t w P.
  unfold main, identities. now rewrite (list_sort_order_independent _ _ P).
Qed.

Lemma C7_order_independent_witness :
  Permutation ["bravo.x"; "alpha.x"] ["alpha.x"; "bravo.x"] /\
  main (idle_build 0) ["bravo.x"; "alpha.x"] sample_linker tt
  = main (idle_build 0) ["alpha.x"; "bravo.x"] sample_linker tt.
Proof.
  assert (Permutation ["bravo.x"; "alpha.x"] ["alpha.x"; "bravo.x"]) as P
      by apply perm_swap.
  split; [exact P |].
  apply (C7_order_independent unit (idle_build 0) _ _ sample_linker tt P).
Defined.





(** C10.  A name without a dot loses its last character: its identity is
    the name without the final character. *)
Theorem C10_dotless_name_loses_last_character :
  forall name : string,
    has_char "." name = false ->
    str_find name "." = -1 /\
    identity name = slice_to name (-1) /\
    identity name = drop_last name /\
    (name <> "" -> identity name <> name).
Proof.
  intros name H. split; [| split; [| split]].
  - unfold str_find. now apply find_dot_absent.
  - unfold identity, str_find. now rewrite find_dot_absent.
  - now apply identity_without_dot.
  - intros Hne E. rewrite identity_without_dot in E by assumption.
    apply (f_equal String.length) in E.
    rewrite drop_last_length in E. destruct name; [congruence | simpl in E; lia].
Qed.

Lemma C10_dotless_name_loses_last_character_witness :
  has_char "." "hello" = false /\ identity "hello" = drop_last "hello".
Proof.
  split; [reflexivity |].
  apply (C10_dotless_name_loses_last_character "hello"). reflexivity.
Defined.

Example dotless_hello : drop_last "hello" = "hell".
Proof. reflexivity. Qed.

(* ================================================================= *)
(** ** Further properties of the script *)

(** Reasoning along the scan of [str.replace]: the text is empty, or starts
    with an occurrence of [old], or starts with a character at which no
    occurrence starts. *)
Lemma scan_ind (old : string) (P : string -> Prop) :
  old <> "" ->
  P "" ->
  (forall r, P r -> P (old ++ r)) ->
  (forall c s, prefix old (String c s) = false -> P s -> P (String c s)) ->
  forall s, P s.
Proof.
  intros Hne Hnil Hhere Hkeep s.
  assert (H : forall n s, (String.length s <= n)%nat -> P s).
  { clear s. induction n as [|n IH]; intros s Hn.
    - destruct s; [assumption | simpl in Hn; lia].
    - destruct s as [|c s]; [assumption |].
      destruct (prefix old (String c s)) eqn:E.
      + destruct (prefix_split _ _ E) as [r Hr]. rewrite Hr.
        apply Hhere, IH.
        apply (f_equal String.length) in Hr. rewrite length_append in Hr.
        assert (String.length old <> 0)%nat by (destruct old; [congruence | discriminate]).
        simpl in Hn, Hr. lia.
      + apply Hkeep; [assumption |]. apply IH. simpl in Hn. lia. }
  now apply (H (String.length s)).
Qed.

Lemma str_replace_same (s old : string) : old <> "" -> str_replace s old old = s.
Proof.
  intros Hne. revert s. apply (scan_ind old); [assumption | | |].
  - now apply str_replace_empty.
  - intros r IH. rewrite str_replace_here by assumption. now f_equal.
  - intros c s Hp IH. rewrite str_replace_keep by assumption. now f_equal.
Qed.



Lemma dot_split (s : string) :
  has_char "." s = true ->
  exists a b, s = a ++ String "." b /\ has_char "." a = false.
Proof.
  induction s as [|c s IH]; simpl; [discriminate |].
  destruct (Ascii.eqb c ".") eqn:E; simpl.
  - intros _. apply Ascii.eqb_eq in E. subst c. now exists "", s.
  - intros H. destruct (IH H) as (a & b & -> & Ha).
    exists (String c a), b. split; [reflexivity |]. simpl. now rewrite E.
Qed.

Lemma drop_last_prefix (s : string) : prefix (drop_last s) s = true.
Proof.
  induction s as [|c s IH]; [reflexivity |].
  destruct s as [|d s]; [reflexivity |].
  cbn [drop_last prefix] in *.
  destruct (ascii_dec c c); [exact IH | congruence].
Qed.

Lemma drop_last_has_char (c : ascii) (s : string) :
  has_char c s = false -> has_char c (drop_last s) = false.
Proof.
  induction s as [|x s IH]; [reflexivity |].
  destruct s as [|d s]; [reflexivity |].
  cbn [drop_last has_char] in *. intros H.
  apply orb_false_elim in H as [Hx Hs]. now rewrite Hx, (IH Hs).
Qed.

(** X2.  Whatever the name, the identity handed to cargo is a beginning of
    the name, contains no dot, and is shorter than the name unless the name
    is empty. *)
Theorem X2_identity_is_dot_free_prefix :
  forall name : string,
    prefix (identity name) name = true /\
    has_char "." (identity name) = false /\
    (String.length (identity name) <= String.length name)%nat /\
    (name <> "" -> String.length (identity name) < String.length name)%nat.
Proof.
  intros name. destruct (has_char "." name) eqn:E.
  - destruct (dot_split name E) as (a & b & -> & Ha).
    rewrite identity_before_first_dot by assumption.
    rewrite prefix_append, Ha, length_append. simpl.
    repeat split; try lia.
  - rewrite identity_without_dot by assumption.
    rewrite drop_last_prefix, drop_last_has_char, drop_last_length by assumption.
    repeat split; try lia.
    intros Hne. destruct name; [congruence | simpl; lia].
Qed.

(** X3.  A name with a dot gives what stands before its first dot, whatever
    follows; a name that begins with a dot gives the empty identity. *)
Theorem X3_identity_of_dotted_name :
  forall ident rest : string,
    has_char "." ident = false ->
    str_find (ident ++ String "." rest) "." = Z.of_nat (String.length ident) /\
    identity (ident ++ String "." rest) = ident /\
    identity (String "." rest) = "".
Proof.
  intros ident rest H. split; [| split].
  - unfold str_find. now rewrite find_dot_first.
  - now apply identity_before_first_dot.
  - now apply (identity_before_first_dot "" rest).
Qed.

Lemma X3_identity_of_dotted_name_witness :
  has_char "." "00hello_world" = false /\
  identity ("00hello_world" ++ String "." "tar.gz") = "00hello_world".
Proof.
  split; [reflexivity |].
  apply (X3_identity_of_dotted_name "00hello_world" "tar.gz"). reflexivity.
Defined.

(** X4.  When every name in the directory is an identity, a dot and an
    extension, and the characters of the identities all sort after the dot
    (digits, letters, underscore), the loop goes through the identities in
    sorted order. *)
Theorem X4_identities_sorted_for_plain_names :
  forall listdir : list string,
    Forall well_named listdir ->
    StronglySorted str_le (identities listdir).
Proof.
  intros listdir H. unfold identities. apply identities_sorted_map.
  - eapply Permutation_Forall; [apply list_sort_permutation | exact H].
  - apply list_sort_sorted.
Qed.

Lemma X4_identities_sorted_for_plain_names_witness :
  Forall well_named ["01store_fault.rs"; "00hello_world.rs"] /\
  StronglySorted str_le (identities ["01store_fault.rs"; "00hello_world.rs"]).
Proof.
  assert (Forall well_named ["01store_fault.rs"; "00hello_world.rs"]) as H.
  { repeat constructor.
    - exists "01store_fault", "rs". split; reflexivity.
    - exists "00hello_world", "rs". split; reflexivity. }
  split; [exact H |].
  apply (X4_identities_sorted_for_plain_names _ H).
Defined.

Lemma append_cancel_r (a b c : string) : a ++ c = b ++ c -> a = b.
Proof.
  revert b; induction a as [|x a IH]; intros [|y b] H; simpl in H.
  - reflexivity.
  - apply (f_equal String.length) in H. simpl in H. rewrite length_append in H. lia.
  - apply (f_equal String.length) in H. simpl in H. rewrite length_append in H. lia.
  - injection H as -> H. f_equal. now apply IH.
Qed.

Lemma identity_named_with (ext name1 name2 : string) :
  named_with ext name1 -> named_with ext name2 ->
  identity name1 = identity name2 -> name1 = name2.
Proof.
  intros (i1 & -> & H1) (i2 & -> & H2).
  rewrite !identity_before_first_dot by assumption.
  now intros ->.
Qed.

(** X5.  When the names in the directory are distinct and all are a
    dot-free identity followed by the same extension, no identity comes
    twice: every application is built once, under a command of its own. *)
Theorem X5_identities_distinct_for_one_extension :
  forall (ext : string) (listdir : list string),
    Forall (named_with ext) listdir ->
    NoDup listdir ->
    NoDup (identities listdir) /\
    NoDup (map cargo_command (identities listdir)).
Proof.
  intros ext listdir Hnamed Hnd.
  assert (NoDup (list_sort listdir)) as Hnd'
      by (eapply Permutation_NoDup; [apply list_sort_permutation | exact Hnd]).
  assert (Forall (named_with ext) (list_sort listdir)) as Hnamed'
      by (eapply Permutation_Forall; [apply list_sort_permutation | exact Hnamed]).
  rewrite Forall_forall in Hnamed'.
  assert (NoDup (identities listdir)) as Hids.
  { unfold identities. apply Finite.Injective_map_NoDup_in; [| exact Hnd'].
    intros x y Hx Hy. apply (identity_named_with ext); now apply Hnamed'. }
  split; [exact Hids |].
  apply Finite.Injective_map_NoDup; [| exact Hids].
  intros a b H. unfold cargo_command in H.
  apply append_cancel_l in H. now apply append_cancel_r in H.
Qed.

Lemma X5_identities_distinct_for_one_extension_witness :
  Forall (named_with "rs") ["01store_fault.rs"; "00hello_world.rs"] /\
  NoDup ["01store_fault.rs"; "00hello_world.rs"] /\
  NoDup (identities ["01store_fault.rs"; "00hello_world.rs"]).
Proof.
  assert (Forall (named_with "rs") ["01store_fault.rs"; "00hello_world.rs"]) as H.
  { repeat constructor.
    - exists "01store_fault". split; reflexivity.
    - exists "00hello_world". split; reflexivity. }
  assert (NoDup ["01store_fault.rs"; "00hello_world.rs"]) as Hnd.
  { repeat constructor; simpl; intuition discriminate. }
  split; [exact H |]. split; [exact Hnd |].
  apply (X5_identities_distinct_for_one_extension "rs" _ H Hnd).
Defined.

Section Composition.

Variable World : Type.

Lemma loop_body_closed
    (os_system : string -> string -> World -> string * World * Z)
    (app : string) (app_id : nat) (st : state World) :
  loop_body os_system app app_id st
  = mkState (linker_ld st)
      (fst (run_builds os_system (linker_ld st) app_id [app] (world st)))
      (log st ++ script_log (linker_ld st) app_id [app]
                   (snd (run_builds os_system (linker_ld st) app_id [app]
                                    (world st))))%list.
Proof.
  unfold loop_body, print, system, write_linker.
  cbn [linker_ld world log run_builds]. rewrite patched_text.
  destruct (os_system _ _ _) as [[ld w] status].
  cbn [linker_ld world log fst snd script_log].
  rewrite writelines_readlines, <- app_assoc. reflexivity.
Qed.

Lemma for_apps_closed
    (os_system : string -> string -> World -> string * World * Z)
    (apps : list string) :
  forall (app_id : nat) (st : state World),
    for_apps os_system apps app_id st
    = mkState (linker_ld st)
        (fst (run_builds os_system (linker_ld st) app_id apps (world st)))
        (log st ++ script_log (linker_ld st) app_id apps
                     (snd (run_builds os_system (linker_ld st) app_id apps
                                      (world st))))%list.
Proof.
  induction apps as [|app apps IH]; intros app_id st.
  - destruct st as [ld w l]. cbn. now rewrite app_nil_r.
  - cbn [for_apps]. rewrite IH, loop_body_closed.
    cbn [linker_ld world log run_builds].
    destruct (os_system _ _ _) as [[ld w] status].
    cbn [fst snd script_log].
    destruct (run_builds os_system (linker_ld st) (S app_id) apps w) as [w' ss].
    cbn [fst snd script_log]. rewrite <- app_assoc. reflexivity.
Qed.

Lemma run_builds_agree
    (sys1 sys2 : string -> string -> World -> string * World * Z)
    (t : string) (apps : list string) :
  (forall command template w,
      snd (fst (sys1 command template w)) = snd (fst (sys2 command template w)) /\
      snd (sys1 command template w) = snd (sys2 command template w)) ->
  forall (app_id : nat) (w : World),
    run_builds sys1 t app_id apps w = run_builds sys2 t app_id apps w.
Proof.
  intros Hagree. induction apps as [|app apps IH]; intros app_id w; [reflexivity |].
  cbn [run_builds].
  destruct (Hagree (cargo_command (identity app))
                   (str_replace t (hex base_address) (hex (address app_id))) w)
    as [Hw Hs].
  destruct (sys1 _ _ _) as [[ld1 w1] s1], (sys2 _ _ _) as [[ld2 w2] s2].
  simpl in Hw, Hs. subst w2 s2. now rewrite IH.
Qed.

End Composition.


(** X7.  What a build writes into the linker script is lost: two build
    commands that act alike on the world and return the same statuses give
    the same run, whatever each of them leaves in the linker script. *)
Theorem X7_writes_to_linker_are_discarded :
  forall (World : Type)
         (sys1 sys2 : string -> string -> World -> string * World * Z)
         (listdir : list string) (t : string) (w : World),
    (forall command template w',
        snd (fst (sys1 command template w')) = snd (fst (sys2 command template w')) /\
        snd (sys1 command template w') = snd (sys2 command template w')) ->
    main sys1 listdir t w = main sys2 listdir t w.
Proof.
  intros World sys1 sys2 listdir t w Hagree. unfold main.
  rewrite !for_apps_closed.
  now rewrite (run_builds_agree World sys1 sys2 _ _ Hagree).
Qed.

Lemma X7_writes_to_linker_are_discarded_witness :
  main (scribbling_build 0) ["bravo.x"; "alpha.x"] sample_linker tt
  = main (idle_build 0) ["bravo.x"; "alpha.x"] sample_linker tt.
Proof.
  apply (X7_writes_to_linker_are_discarded unit (scribbling_build 0) (idle_build 0)).
  intros command template w'. split; reflexivity.
Defined.

(* ================================================================= *)
(** ** Lines of a text *)

Lemma has_char_append (c : ascii) (a b : string) :
  has_char c (a ++ b) = has_char c a || has_char c b.
Proof.
  induction a as [|x a IH]; simpl; [reflexivity |].
  now rewrite IH, orb_assoc.
Qed.

Lemma readlines_open (l : string) :
  l <> "" -> has_char LF l = false -> readlines l = [l].
Proof.
  induction l as [|c l IH]; intros Hne H; [congruence |].
  simpl in H. apply orb_false_elim in H as [Hc Hl].
  cbn [readlines]. rewrite Hc.
  destruct l as [|d l]; [reflexivity |].
  now rewrite IH.
Qed.

Lemma readlines_full (body r : string) :
  has_char LF body = false ->
  readlines (body ++ String LF r) = (body ++ String LF "") :: readlines r.
Proof.
  induction body as [|c body IH]; intros H.
  - cbn [append readlines]. now rewrite Ascii.eqb_refl.
  - simpl in H. apply orb_false_elim in H as [Hc Hb].
    cbn [append readlines]. rewrite Hc, (IH Hb). reflexivity.
Qed.

Lemma full_line_cons (c : ascii) (l : string) :
  Ascii.eqb c LF = false -> full_line l -> full_line (String c l).
Proof.
  intros Hc (body & -> & Hb). exists (String c body).
  split; [reflexivity |]. simpl. now rewrite Hc.
Qed.

Lemma open_line_cons (c : ascii) (l : string) :
  Ascii.eqb c LF = false -> open_line l -> open_line (String c l).
Proof.
  intros Hc (_ & Hl). split; [discriminate |]. simpl. now rewrite Hc.
Qed.

Lemma readlines_text_lines (s : string) : text_lines (readlines s).
Proof.
  induction s as [|c s IH]; [exact I |].
  cbn [readlines]. destruct (Ascii.eqb c LF) eqn:E.
  - apply Ascii.eqb_eq in E. subst c.
    assert (full_line (String LF "")) as Hf by (now exists "").
    cbn [text_lines]. destruct (readlines s); [now left | now split].
  - destruct (readlines s) as [|l ls].
    + right. split; [discriminate |]. simpl. now rewrite E.
    + cbn [text_lines] in *. destruct ls as [|l' ls].
      * destruct IH as [Hf | Ho];
          [left; now apply full_line_cons | right; now apply open_line_cons].
      * destruct IH as [Hf Hls]. split; [now apply full_line_cons | exact Hls].
Qed.

Lemma readlines_writelines (ls : list string) :
  text_lines ls -> readlines (writelines ls) = ls.
Proof.
  induction ls as [|l ls IH]; intros H; [reflexivity |].
  cbn [text_lines] in H. cbn [writelines fold_right]. fold (writelines ls).
  destruct ls as [|l' ls].
  - cbn [writelines fold_right]. rewrite append_nil_r.
    destruct H as [(body & -> & Hb) | (Hne & Hl)].
    + now rewrite readlines_full.
    + now apply readlines_open.
  - destruct H as [(body & -> & Hb) Hls].
    rewrite append_assoc. cbn [append].
    rewrite readlines_full by assumption. now rewrite IH.
Qed.

(* ================================================================= *)
(** ** Patching keeps the lines *)

Section PatchLines.

Variables old new : string.
Hypothesis old_not_empty : old <> "".
Hypothesis old_one_line : has_char LF old = false.
Hypothesis new_not_empty : new <> "".
Hypothesis new_one_line : has_char LF new = false.

Lemma replace_from_one_line (s : string) :
  has_char LF s = false ->
  forall skip, has_char LF (replace_from old new skip s) = false.
Proof.
  induction s as [|c s IH]; intros H skip; [reflexivity |].
  simpl in H. apply orb_false_elim in H as [Hc Hs].
  cbn [replace_from]. destruct skip as [|k]; [| now apply IH].
  destruct (prefix old (String c s)).
  - rewrite has_char_append, new_one_line. now apply IH.
  - simpl. rewrite Hc. now apply IH.
Qed.

Lemma str_replace_one_line (s : string) :
  has_char LF s = false -> has_char LF (str_replace s old new) = false.
Proof.
  intros H. rewrite str_replace_not_empty by assumption.
  now apply replace_from_one_line.
Qed.

Lemma str_replace_not_nil (s : string) :
  s <> "" -> str_replace s old new <> "".
Proof.
  intros Hne. destruct s as [|c s]; [congruence |].
  destruct (prefix old (String c s)) eqn:E.
  - destruct (prefix_split _ _ E) as [r ->].
    rewrite str_replace_here by assumption.
    intros H. apply append_empty in H. contradiction.
  - rewrite str_replace_keep by assumption. discriminate.
Qed.

Lemma str_replace_full_line (l : string) :
  full_line l -> full_line (str_replace l old new).
Proof.
  intros (body & -> & Hb). exists (str_replace body old new). split.
  - rewrite str_replace_line by assumption.
    now rewrite str_replace_empty.
  - now apply str_replace_one_line.
Qed.

Lemma str_replace_open_line (l : string) :
  open_line l -> open_line (str_replace l old new).
Proof.
  intros (Hne & Hl). split;
    [now apply str_replace_not_nil | now apply str_replace_one_line].
Qed.

Lemma str_replace_text_lines (ls : list string) :
  text_lines ls -> text_lines (map (fun l => str_replace l old new) ls).
Proof.
  induction ls as [|l ls IH]; intros H; [exact I |].
  cbn [text_lines map] in *. destruct ls as [|l' ls].
  - cbn [map]. destruct H as [Hf | Ho];
      [left; now apply str_replace_full_line
      | right; now apply str_replace_open_line].
  - destruct H as [Hf Hls]. cbn [map] in *.
    split; [now apply str_replace_full_line | now apply IH].
Qed.

Lemma readlines_str_replace (t : string) :
  readlines (str_replace t old new)
  = map (fun l => str_replace l old new) (readlines t).
Proof.
  rewrite <- (str_replace_readlines old new old_not_empty old_one_line t).
  apply readlines_writelines, str_replace_text_lines, readlines_text_lines.
Qed.

End PatchLines.

Lemma lower_hex_no_line_feed (s : string) :
  all_chars lower_hex_digit s = true -> has_char LF s = false.
Proof.
  induction s as [|c s IH]; [reflexivity |].
  simpl. intros H. apply andb_prop in H as [Hc Hs].
  rewrite (IH Hs), orb_false_r.
  apply Ascii.eqb_neq. intros ->. discriminate.
Qed.

Lemma hex_one_line (n : Z) : 0 < n -> has_char LF (hex n) = false.
Proof.
  intros Hn. destruct n as [|p|p]; try lia.
  unfold hex, HexString.of_Z, HexString.of_pos.
  destruct (raw_of_pos_digits p "" eq_refl) as (d & ds & -> & _ & Hall).
  change (String "0" (String "x" (String d ds))) with ("0x" ++ String d ds).
  now rewrite has_char_append, (lower_hex_no_line_feed _ Hall).
Qed.

Lemma hex_not_empty (n : Z) : hex n <> "".
Proof. destruct n; discriminate. Qed.

(** X10.  Patching never moves a line break: the patched linker script has
    as many lines as the original, and its lines are the patched lines of
    the original, in order. *)
Theorem X10_patch_keeps_the_lines :
  forall (k : nat) (t : string),
    readlines (writelines (map (patch_line k) (readlines t)))
    = map (patch_line k) (readlines t) /\
    readlines (str_replace t (hex base_address) (hex (address k)))
    = map (patch_line k) (readlines t) /\
    List.length (readlines (str_replace t (hex base_address) (hex (address k))))
    = List.length (readlines t).
Proof.
  intros k t.
  assert (readlines (str_replace t (hex base_address) (hex (address k)))
          = map (patch_line k) (readlines t)) as H.
  { apply readlines_str_replace.
    - exact hex_base_not_empty.
    - exact hex_base_one_line.
    - apply hex_not_empty.
    - apply hex_one_line, address_positive. }
  split; [now rewrite patched_text |]. split; [exact H |].
  now rewrite H, length_map.
Qed.

(* ================================================================= *)
(** ** Different ordinals, different linker scripts *)

Lemma occurs_tail (old : string) (c : ascii) (s : string) :
  prefix old (String c s) = false -> occurs old (String c s) -> occurs old s.
Proof.
  intros Hp (before & after & H). destruct before as [|x before].
  - simpl in H. rewrite H, prefix_append in Hp. discriminate.
  - simpl in H. injection H as _ H. now exists before, after.
Qed.

Lemma occurs_empty (old : string) : old <> "" -> ~ occurs old "".
Proof.
  intros Hne (before & after & H). symmetry in H.
  apply append_empty in H as Hb. subst before. simpl in H.
  apply append_empty in H. contradiction.
Qed.

(** The length of the result counts the replacements. *)
Lemma str_replace_length (old : string) :
  old <> "" ->
  forall s, exists m,
    (occurs old s -> 1 <= m)%nat /\
    forall new,
      (String.length (str_replace s old new) + m * String.length old
       = String.length s + m * String.length new)%nat.
Proof.
  intros Hne. apply (scan_ind old); [assumption | | |].
  - exists 0%nat. split.
    + intros H. now apply occurs_empty in H.
    + intros new. now rewrite str_replace_empty.
  - intros r (m & _ & Hm). exists (S m). split; [lia |].
    intros new. specialize (Hm new).
    rewrite str_replace_here by assumption.
    rewrite !length_append, !Nat.mul_succ_l. lia.
  - intros c s Hp (m & Hocc & Hm). exists m. split.
    + intros H. apply Hocc. now apply (occurs_tail old c s).
    + intros new. specialize (Hm new).
      rewrite str_replace_keep by assumption. simpl. lia.
Qed.

Lemma append_same_length (a b x y : string) :
  String.length a = String.length b -> a ++ x = b ++ y -> a = b.
Proof.
  revert b; induction a as [|c a IH]; intros [|d b] Hl H; simpl in *;
    try reflexivity; try discriminate.
  injection H as -> H. f_equal. apply IH; [lia | assumption].
Qed.

Lemma str_replace_same_length_differs (old n1 n2 : string) :
  old <> "" -> String.length n1 = String.length n2 ->
  forall s, occurs old s ->
            str_replace s old n1 = str_replace s old n2 -> n1 = n2.
Proof.
  intros Hne Hl.
  apply (scan_ind old (fun s => occurs old s ->
                               str_replace s old n1 = str_replace s old n2 ->
                               n1 = n2)); [assumption | | |].
  - intros H. now apply occurs_empty in H.
  - intros r _ _ H. rewrite !str_replace_here in H by assumption.
    now apply append_same_length in H.
  - intros c s Hp IH Hocc H. rewrite !str_replace_keep in H by assumption.
    injection H as H. apply IH; [| assumption].
    now apply (occurs_tail old c s).
Qed.

(** Where [old] occurs, different replacements give different texts. *)
Lemma str_replace_differs (old n1 n2 s : string) :
  old <> "" -> occurs old s ->
  str_replace s old n1 = str_replace s old n2 -> n1 = n2.
Proof.
  intros Hne Hocc H.
  apply (str_replace_same_length_differs old n1 n2 Hne) with (s := s);
    try assumption.
  destruct (str_replace_length old Hne s) as (m & Hm & Hlen).
  specialize (Hm Hocc).
  pose proof (Hlen n1) as H1. pose proof (Hlen n2) as H2.
  rewrite H in H1.
  assert (m * String.length n1 = m * String.length n2)%nat as E by lia.
  apply Nat.mul_cancel_l in E; [assumption | lia].
Qed.

Lemma hex_injective (a b : Z) : hex a = hex b -> a = b.
Proof.
  intros H. rewrite <- (hex_value a), <- (hex_value b). now rewrite H.
Qed.

(** X11.  When the canonical literal occurs in the linker script, two
    applications at different positions are built on different linker
    scripts; in particular every application after the first is built on a
    text that differs from the original. *)
Theorem X11_different_ordinals_different_scripts :
  forall (World : Type)
         (os_system : string -> string -> World -> string * World * Z)
         (listdir : list string) (t : string) (w : World)
         (i j : nat) (app_i app_j : string),
    occurs (hex base_address) t ->
    nth_error (list_sort listdir) i = Some app_i ->
    nth_error (list_sort listdir) j = Some app_j ->
    i <> j ->
    (exists (t_i t_j : string) (s_i s_j : Z),
        nth_error (builds (log (main os_system listdir t w))) i
        = Some (cargo_command (identity app_i), t_i, s_i) /\
        nth_error (builds (log (main os_system listdir t w))) j
        = Some (cargo_command (identity app_j), t_j, s_j) /\
        t_i <> t_j) /\
    (forall k : nat,
        str_replace t (hex base_address) (hex (address (S k))) <> t).
Proof.
  intros World os_system listdir t w i j app_i app_j Hocc Hi Hj Hij.
  assert (forall a b : nat,
             str_replace t (hex base_address) (hex (address a))
             = str_replace t (hex base_address) (hex (address b)) -> a = b)
    as Hinj.
  { intros a b H. apply address_injective, hex_injective.
    now apply (str_replace_differs (hex base_address) _ _ t hex_base_not_empty). }
  split.
  - destruct (main_log World os_system listdir t w) as (ss & Hlen & ->).
    destruct (builds_script_log t _ 0 ss i app_i Hlen Hi) as (s_i & _ & Hbi).
    destruct (builds_script_log t _ 0 ss j app_j Hlen Hj) as (s_j & _ & Hbj).
    eexists _, _, s_i, s_j. split; [exact Hbi |]. split; [exact Hbj |].
    intros H. apply Hinj in H. simpl in H. contradiction.
  - intros k H.
    rewrite <- (str_replace_same t (hex base_address) hex_base_not_empty) in H at 2.
    change (hex base_address) with (hex (address 0)) in H at 3.
    apply Hinj in H. discriminate.
Qed.

Lemma X11_different_ordinals_different_scripts_witness :
  occurs (hex base_address) sample_linker /\
  str_replace sample_linker (hex base_address) (hex (address 1)) <> sample_linker.
Proof.
  assert (occurs (hex base_address) sample_linker) as Hocc.
  { exists "BASE_ADDRESS = ", (";" ++ String LF ("SECTIONS" ++ String LF "")).
    reflexivity. }
  split; [exact Hocc |].
  destruct (X11_different_ordinals_different_scripts unit (idle_build 0)
              ["bravo.x"; "alpha.x"] sample_linker tt 0 1 "alpha.x" "bravo.x"
              Hocc eq_refl eq_refl) as (_ & H); [discriminate |].
  exact (H 0%nat).
Defined.

(* ================================================================= *)
(** ** Line endings of the stored content *)

Lemma universal_newlines_cons (c : ascii) (rest : string) :
  Disk.universal_newlines (String c rest)
  = if Ascii.eqb c Disk.CR
    then String LF
           match rest with
           | EmptyString => EmptyString
           | String d rest' =>
               if Ascii.eqb d LF then Disk.universal_newlines rest'
               else Disk.universal_newlines rest
           end
    else String c (Disk.universal_newlines rest).
Proof. reflexivity. Qed.

(** A content without carriage return is read as it is. *)
Lemma universal_newlines_plain (raw : string) :
  has_char Disk.CR raw = false -> Disk.universal_newlines raw = raw.
Proof.
  induction raw as [|c raw IH]; intros H; [reflexivity |].
  simpl in H. apply orb_false_elim in H as [Hc Hr].
  rewrite universal_newlines_cons, Hc. f_equal. now apply IH.
Qed.

(** What is read holds no carriage return. *)
Lemma universal_newlines_no_cr (raw : string) :
  has_char Disk.CR (Disk.universal_newlines raw) = false.
Proof.
  assert (H : has_char Disk.CR (Disk.universal_newlines raw) = false /\
              forall c, has_char Disk.CR
                          (Disk.universal_newlines (String c raw)) = false);
    [| exact (proj1 H)].
  induction raw as [|d raw [IH1 IH2]].
  - split; [reflexivity |]. intros c. rewrite universal_newlines_cons.
    destruct (Ascii.eqb c Disk.CR) eqn:E; [reflexivity |].
    simpl. now rewrite E.
  - split; [apply IH2 |]. intros c. rewrite universal_newlines_cons.
    destruct (Ascii.eqb c Disk.CR) eqn:E.
    + cbn [has_char]. change (Ascii.eqb LF Disk.CR) with false. cbn [orb].
      destruct (Ascii.eqb d LF); [exact IH1 | apply IH2].
    + cbn [has_char]. rewrite E. cbn [orb]. apply IH2.
Qed.

Lemma universal_newlines_idempotent (raw : string) :
  Disk.universal_newlines (Disk.universal_newlines raw)
  = Disk.universal_newlines raw.
Proof. apply universal_newlines_plain, universal_newlines_no_cr. Qed.

Lemma universal_newlines_empty (raw : string) :
  Disk.universal_newlines raw = "" -> raw = "".
Proof.
  destruct raw as [|c raw]; [reflexivity |].
  rewrite universal_newlines_cons. destruct (Ascii.eqb c Disk.CR); discriminate.
Qed.

Lemma has_char_writelines (c : ascii) (ls : list string) :
  has_char c (writelines ls) = false <-> Forall (fun l => has_char c l = false) ls.
Proof.
  induction ls as [|l ls IH]; cbn [writelines fold_right].
  - split; [constructor | reflexivity].
  - fold (writelines ls). rewrite has_char_append, orb_false_iff, IH.
    split.
    + intros [Hl Hls]. now constructor.
    + intros H. apply Forall_cons_iff in H. exact H.
Qed.

Section OnDisk.

Variable World : Type.
Variable os_system : string -> string -> World -> string * World * Z.

(** A pass over the stored content is a pass over the text read from it. *)
Lemma disk_loop_body (app : string) (app_id : nat) (st : state World) :
  Disk.loop_body os_system app app_id st
  = loop_body os_system app app_id
      (mkState (Disk.universal_newlines (linker_ld st)) (world st) (log st)).
Proof. reflexivity. Qed.

Lemma disk_loop_body_linker (app : string) (app_id : nat) (st : state World) :
  linker_ld (Disk.loop_body os_system app app_id st)
  = Disk.universal_newlines (linker_ld st).
Proof. rewrite disk_loop_body. now rewrite loop_body_linker. Qed.

(** Once the stored content holds no carriage return, the loop over it is
    the loop over the text. *)
Lemma disk_for_apps_plain (apps : list string) :
  forall (app_id : nat) (st : state World),
    has_char Disk.CR (linker_ld st) = false ->
    Disk.for_apps os_system apps app_id st = for_apps os_system apps app_id st.
Proof.
  induction apps as [|app apps IH]; intros app_id st H; [reflexivity |].
  cbn [Disk.for_apps for_apps].
  assert (Disk.loop_body os_system app app_id st
          = loop_body os_system app app_id st) as E.
  { rewrite disk_loop_body, (universal_newlines_plain _ H). now destruct st. }
  rewrite E. apply IH. now rewrite loop_body_linker.
Qed.

Lemma disk_for_apps (apps : list string) (app_id : nat) (st : state World) :
  apps <> [] ->
  Disk.for_apps os_system apps app_id st
  = for_apps os_system apps app_id
      (mkState (Disk.universal_newlines (linker_ld st)) (world st) (log st)).
Proof.
  destruct apps as [|app apps]; [congruence |]. intros _.
  cbn [Disk.for_apps for_apps]. rewrite <- disk_loop_body.
  apply disk_for_apps_plain.
  rewrite disk_loop_body_linker. apply universal_newlines_no_cr.
Qed.

Lemma disk_for_apps_linker (apps : list string) (app_id : nat) (st : state World) :
  linker_ld (Disk.for_apps os_system apps app_id st)
  = match apps with
    | [] => linker_ld st
    | _ :: _ => Disk.universal_newlines (linker_ld st)
    end.
Proof.
  destruct apps as [|app apps]; [reflexivity |].
  rewrite disk_for_apps by discriminate. now rewrite for_apps_linker.
Qed.

End OnDisk.

(** C1, as the script has it.  The script reads and writes the linker
    script as text.  A linker script without carriage return is, after the
    run, what it was before, for every list of applications and whatever
    the builds do and return; and every pass of the loop, and every stretch
    of it, hands such a linker script on as it found it.  In general a pass
    leaves the content with each carriage return, alone or before a line
    feed, rewritten as a line feed; a second pass changes nothing more; and
    a run without applications does not touch the file. *)
Theorem C1_template_restored_as_text :
  forall (World : Type)
         (os_system : string -> string -> World -> string * World * Z),
    (forall (listdir : list string) (raw : string) (w : World),
        has_char Disk.CR raw = false ->
        linker_ld (Disk.main os_system listdir raw w) = raw) /\
    (forall (app : string) (app_id : nat) (st : state World),
        has_char Disk.CR (linker_ld st) = false ->
        linker_ld (Disk.loop_body os_system app app_id st) = linker_ld st) /\
    (forall (apps : list string) (app_id : nat) (st : state World),
        has_char Disk.CR (linker_ld st) = false ->
        linker_ld (Disk.for_apps os_system apps app_id st) = linker_ld st) /\
    (forall (app : string) (app_id : nat) (st : state World),
        linker_ld (Disk.loop_body os_system app app_id st)
        = Disk.universal_newlines (linker_ld st)) /\
    (forall (listdir : list string) (raw : string) (w : World),
        linker_ld (Disk.main os_system listdir raw w)
        = match listdir with
          | [] => raw
          | _ :: _ => Disk.universal_newlines raw
          end) /\
    (forall raw : string,
        Disk.universal_newlines (Disk.universal_newlines raw)
        = Disk.universal_newlines raw).
Proof.
  intros World os_system.
  assert (forall (listdir : list string) (raw : string) (w : World),
             linker_ld (Disk.main os_system listdir raw w)
             = match listdir with
               | [] => raw
               | _ :: _ => Disk.universal_newlines raw
               end) as Hmain.
  { intros listdir raw w. unfold Disk.main. rewrite disk_for_apps_linker.
    pose proof (list_sort_length listdir) as Hlen.
    destruct listdir, (list_sort _); simpl in Hlen; try discriminate; reflexivity. }
  split; [| split; [| split; [| split; [| split]]]].
  - intros listdir raw w H. rewrite Hmain.
    destruct listdir; [reflexivity | now apply universal_newlines_plain].
  - intros app app_id st H.
    rewrite disk_loop_body_linker. now apply universal_newlines_plain.
  - intros apps app_id st H. rewrite disk_for_apps_linker.
    destruct apps; [reflexivity | now apply universal_newlines_plain].
  - apply disk_loop_body_linker.
  - exact Hmain.
  - apply universal_newlines_idempotent.
Qed.

(** C1, as stated, fails.  A linker script saved with carriage return and
    line feed comes back from a run over one application with the line
    feed alone: the file is not what it was, byte for byte. *)
Lemma C1_crlf_counterexample :
  linker_ld (Disk.main (idle_build 0) ["alpha.x"] Disk.crlf_linker tt)
  = "BASE_ADDRESS = 0x80400000;" ++ String LF "" /\
  linker_ld (Disk.main (idle_build 0) ["alpha.x"] Disk.crlf_linker tt)
  <> Disk.crlf_linker.
Proof. split; [reflexivity | discriminate]. Qed.

(** X8.  Read in text mode, any stored content comes as lines without
    carriage return that each end with their only line feed, except that
    the last may have none (and is then not empty); put together again the
    lines are the content with its line endings rewritten as line feeds,
    which is the content itself when it holds no carriage return; and no
    line is read from the empty content only. *)
Theorem X8_text_read_splits_into_lines :
  forall raw : string,
    text_lines (Disk.readlines raw) /\
    Forall (fun l => has_char Disk.CR l = false) (Disk.readlines raw) /\
    writelines (Disk.readlines raw) = Disk.universal_newlines raw /\
    (has_char Disk.CR raw = false -> writelines (Disk.readlines raw) = raw) /\
    (Disk.readlines raw = [] <-> raw = "").
Proof.
  intros raw. unfold Disk.readlines.
  split; [apply readlines_text_lines |].
  split; [| split; [apply writelines_readlines | split]].
  - apply has_char_writelines. rewrite writelines_readlines.
    apply universal_newlines_no_cr.
  - intros H. rewrite writelines_readlines. now apply universal_newlines_plain.
  - split.
    + intros H. apply universal_newlines_empty.
      rewrite <- (writelines_readlines (Disk.universal_newlines raw)), H.
      reflexivity.
    + now intros ->.
Qed.

(** X9.  Lines of that form, without carriage return, written to the file
    and read back in text mode are the same lines. *)
Theorem X9_plain_lines_written_and_read_back :
  forall ls : list string,
    text_lines ls ->
    Forall (fun l => has_char Disk.CR l = false) ls ->
    Disk.readlines (writelines ls) = ls.
Proof.
  intros ls Hlines Hcr. unfold Disk.readlines.
  rewrite universal_newlines_plain by now apply has_char_writelines.
  now apply readlines_writelines.
Qed.

Lemma X9_plain_lines_written_and_read_back_witness :
  text_lines ["BASE_ADDRESS = 0x80400000;" ++ String LF ""; "SECTIONS"] /\
  Forall (fun l => has_char Disk.CR l = false)
         ["BASE_ADDRESS = 0x80400000;" ++ String LF ""; "SECTIONS"] /\
  Disk.readlines
    (writelines ["BASE_ADDRESS = 0x80400000;" ++ String LF ""; "SECTIONS"])
  = ["BASE_ADDRESS = 0x80400000;" ++ String LF ""; "SECTIONS"].
Proof.
  assert (text_lines ["BASE_ADDRESS = 0x80400000;" ++ String LF ""; "SECTIONS"])
    as H.
  { split.
    - exists "BASE_ADDRESS = 0x80400000;". split; reflexivity.
    - right. split; [discriminate | reflexivity]. }
  assert (Forall (fun l => has_char Disk.CR l = false)
                 ["BASE_ADDRESS = 0x80400000;" ++ String LF ""; "SECTIONS"])
    as Hcr by (repeat constructor).
  split; [exact H |]. split; [exact Hcr |].
  apply (X9_plain_lines_written_and_read_back _ H Hcr).
Defined.

Example carriage_return_splits :
  Disk.readlines ("a" ++ String Disk.CR ("b" ++ String LF ""))
  = ["a" ++ String LF ""; "b" ++ String LF ""].
Proof. reflexivity. Qed.

(** X12.  Over a linker script stored with carriage returns the run does
    what it does over the same script stored with line feeds alone: the
    same builds on the same patched texts with the same statuses, the same
    report lines and the same world at the end; only the file is left with
    line feeds, unless there was no application to build. *)
Theorem X12_run_over_stored_content :
  forall (World : Type)
         (os_system : string -> string -> World -> string * World * Z)
         (listdir : list string) (raw : string) (w : World),
    log (Disk.main os_system listdir raw w)
    = log (main os_system listdir (Disk.universal_newlines raw) w) /\
    world (Disk.main os_system listdir raw w)
    = world (main os_system listdir (Disk.universal_newlines raw) w) /\
    (listdir <> [] ->
     Disk.main os_system listdir raw w
     = main os_system listdir (Disk.universal_newlines raw) w) /\
    (has_char Disk.CR raw = false ->
     Disk.main os_system listdir raw w = main os_system listdir raw w).
Proof.
  intros World os_system listdir raw w. unfold Disk.main, main.
  assert (list_sort listdir <> [] ->
          Disk.for_apps os_system (list_sort listdir) 0 (mkState raw w [])
          = for_apps os_system (list_sort listdir) 0
              (mkState (Disk.universal_newlines raw) w [])) as Hrun.
  { intros Hne. now rewrite disk_for_apps. }
  destruct (list_sort listdir) as [|a l] eqn:E.
  - repeat split; try reflexivity.
    intros Hne. pose proof (list_sort_length listdir) as Hlen.
    rewrite E in Hlen. destruct listdir; [congruence | discriminate].
  - rewrite Hrun by discriminate. repeat split; try reflexivity.
    intros H. now rewrite (universal_newlines_plain _ H).
Qed.
